(** * AudioContext: the global audio playback store

    A shallow embedding of [src/context/AudioContext.tsx]: the
    [AudioProvider] component with its four operations ([playTrack],
    [pauseTrack], [stopTrack], [setCurrentTime]), the listeners it
    registers on the audio elements it creates, and the [useAudio] hook;
    then the views that call it: [AudioPlayer], [VoiceCard] with the
    [VoiceLibrary] page, and the player button of [TextToSpeech].

    Conventions of the model.
    - A JavaScript [number] is a rational, [NaN] or an infinity.  The
      provider never computes with numbers: it stores and copies them,
      and the element refuses a position that is not finite.
    - [HTMLAudioElement]s live in a store (a list indexed by allocation
      order); [audioRef.current] is an optional index into it, so that the
      closures registered as listeners and the ref can alias one element.
    - [setAudioState] is applied at once.  The ref and the functional
      updates see the provider as it is; what an operation reads from
      [audioState] is the state seen by the render that created the
      operation's closure, which need not be the latest one. *)

From Stdlib Require Import QArith Qround Lqa.
From stdpp Require Import base option list strings pretty.

Close Scope Q_scope.
Local Open Scope string_scope.
Local Open Scope list_scope.

(** ** Numbers *)

Inductive number : Type :=
| Finite (q : Q)
| NaN
| Infinity
| NegInfinity.

Definition zero : number := Finite 0.

(** [Number.isFinite]. *)
Definition is_finite (x : number) : bool :=
  match x with
  | Finite _ => true
  | _ => false
  end.

(** [x === y] on numbers: [NaN] equals nothing. *)
Definition same_number (x y : number) : Prop :=
  match x, y with
  | Finite a, Finite b => (a == b)%Q
  | Infinity, Infinity => True
  | NegInfinity, NegInfinity => True
  | _, _ => False
  end.

(** How a call ends: with a value, or by throwing. *)
Inductive Exception : Type := TypeError.

Inductive Completion (A : Type) : Type :=
| Normal (v : A)
| Abrupt (e : Exception).
Arguments Normal {A} v.
Arguments Abrupt {A} e.

(** ** The state held by [useState] *)

Record AudioState : Type := mkAudioState {
  currentTrack : option string;
  isPlaying : bool;
  currentTime : number;
  duration : number
}.

(** The argument of [useState]. *)
Definition initialAudioState : AudioState :=
  {| currentTrack := None; isPlaying := false; currentTime := zero; duration := zero |}.

(** ** Audio elements *)

(** The closures passed to [addEventListener].  Each of the first two
    captures the element [audio] it was created for. *)
Inductive Listener : Type :=
| OnLoadedMetadata (audio : nat)
| OnTimeUpdate (audio : nat)
| OnEnded.

Module HTMLAudio.

Record t : Type := mk {
  src : string;
  paused : bool;
  currentTime : number;
  duration : number;
  listeners : list (string * Listener)
}.

(** [new Audio(url)]: nothing plays yet, no listener is attached, and the
    duration is [NaN] until the metadata is there. *)
Definition new (url : string) : t :=
  {| src := url; paused := true; currentTime := zero; duration := NaN; listeners := [] |}.

Definition pause (el : t) : t :=
  {| src := src el; paused := true; currentTime := currentTime el;
     duration := duration el; listeners := listeners el |}.

Definition play (el : t) : t :=
  {| src := src el; paused := false; currentTime := currentTime el;
     duration := duration el; listeners := listeners el |}.

(** The position after an assignment the element accepted. *)
Definition set_currentTime (time : number) (el : t) : t :=
  {| src := src el; paused := paused el; currentTime := time;
     duration := duration el; listeners := listeners el |}.

Definition set_duration (d : number) (el : t) : t :=
  {| src := src el; paused := paused el; currentTime := currentTime el;
     duration := d; listeners := listeners el |}.

Definition addEventListener (type : string) (l : Listener) (el : t) : t :=
  {| src := src el; paused := paused el; currentTime := currentTime el;
     duration := duration el; listeners := listeners el ++ [(type, l)] |}.

End HTMLAudio.

(** ** One mounted [AudioProvider] *)

Record Provider : Type := mkProvider {
  audioState : AudioState;
  audioRef : option nat;
  elements : list HTMLAudio.t
}.

(** The provider as first rendered: [useState] default, [useRef(null)]. *)
Definition mount : Provider :=
  {| audioState := initialAudioState; audioRef := None; elements := [] |}.

Definition setAudioState (f : AudioState -> AudioState) (p : Provider) : Provider :=
  {| audioState := f (audioState p); audioRef := audioRef p; elements := elements p |}.

Definition set_audioRef (a : nat) (p : Provider) : Provider :=
  {| audioState := audioState p; audioRef := Some a; elements := elements p |}.

(** A method call or an assignment on the element behind a reference. *)
Definition on_element (a : nat) (f : HTMLAudio.t -> HTMLAudio.t) (p : Provider) : Provider :=
  {| audioState := audioState p; audioRef := audioRef p; elements := alter f a (elements p) |}.

(** [el.currentTime = time] for a [time] that comes from a caller: the
    attribute is a [double], so a value that is not finite throws a
    [TypeError] and nothing is assigned. *)
Definition assign_currentTime (a : nat) (time : number) (p : Provider) : Completion Provider :=
  if is_finite time then Normal (on_element a (HTMLAudio.set_currentTime time) p)
  else Abrupt TypeError.

(** [new Audio(trackUrl)]: the fresh element and its reference. *)
Definition new_Audio (url : string) (p : Provider) : nat * Provider :=
  (length (elements p),
   {| audioState := audioState p; audioRef := audioRef p;
      elements := elements p ++ [HTMLAudio.new url] |}).

(** The object spreads [{ ...prev, field: v }]. *)
Definition with_isPlaying (b : bool) (prev : AudioState) : AudioState :=
  {| currentTrack := currentTrack prev; isPlaying := b;
     currentTime := currentTime prev; duration := duration prev |}.

Definition with_currentTime (time : number) (prev : AudioState) : AudioState :=
  {| currentTrack := currentTrack prev; isPlaying := isPlaying prev;
     currentTime := time; duration := duration prev |}.

Definition with_duration (d : number) (prev : AudioState) : AudioState :=
  {| currentTrack := currentTrack prev; isPlaying := isPlaying prev;
     currentTime := currentTime prev; duration := d |}.

Definition with_ended (prev : AudioState) : AudioState :=
  {| currentTrack := currentTrack prev; isPlaying := false;
     currentTime := zero; duration := duration prev |}.

(** ** The four operations *)

(** The second half of [playTrack]: silence the element behind the ref,
    create a new one, attach the three listeners, start it.  (The position
    assigned is the literal 0, which the element accepts.) *)
Definition startTrack (trackUrl trackId : string) (p : Provider) : Provider :=
  let p1 :=
    match audioRef p with
    | Some cur =>
        on_element cur (HTMLAudio.set_currentTime zero) (on_element cur HTMLAudio.pause p)
    | None => p
    end in
  let '(audio, p2) := new_Audio trackUrl p1 in
  let p3 := set_audioRef audio p2 in
  let p4 := on_element audio
              (HTMLAudio.addEventListener "loadedmetadata" (OnLoadedMetadata audio)) p3 in
  let p5 := on_element audio
              (HTMLAudio.addEventListener "timeupdate" (OnTimeUpdate audio)) p4 in
  let p6 := on_element audio (HTMLAudio.addEventListener "ended" OnEnded) p5 in
  let p7 := on_element audio HTMLAudio.play p6 in
  setAudioState
    (fun _ => {| currentTrack := Some trackId; isPlaying := true;
                 currentTime := zero; duration := zero |}) p7.

(** [playTrack] as created by a render that saw the state [seen]: the
    tests on [audioState.currentTrack] and [audioState.isPlaying] read
    [seen]; [audioRef.current] and the updates are those of the provider
    as it is when the call is made. *)
Definition playTrack (seen : AudioState) (trackUrl trackId : string) (p : Provider) : Provider :=
  match audioRef p with
  | Some cur =>
      if decide (currentTrack seen = Some trackId) then
        if isPlaying seen then
          setAudioState (with_isPlaying false) (on_element cur HTMLAudio.pause p)
        else
          setAudioState (with_isPlaying true) (on_element cur HTMLAudio.play p)
      else startTrack trackUrl trackId p
  | None => startTrack trackUrl trackId p
  end.

Definition pauseTrack (p : Provider) : Provider :=
  match audioRef p with
  | Some cur => setAudioState (with_isPlaying false) (on_element cur HTMLAudio.pause p)
  | None => p
  end.

Definition stopTrack (p : Provider) : Provider :=
  let p1 :=
    match audioRef p with
    | Some cur =>
        on_element cur (HTMLAudio.set_currentTime zero) (on_element cur HTMLAudio.pause p)
    | None => p
    end in
  setAudioState (fun _ => initialAudioState) p1.

(** [setCurrentTime]: the assignment to the element comes first; when it
    throws, [setAudioState] is not reached. *)
Definition setCurrentTime (time : number) (p : Provider) : Completion Provider :=
  match audioRef p with
  | Some cur =>
      match assign_currentTime cur time p with
      | Normal p1 => Normal (setAudioState (with_currentTime time) p1)
      | Abrupt e => Abrupt e
      end
  | None => Normal p
  end.

(** ** Listeners and the events of the browser *)

(** Running one registered closure. *)
Definition run_listener (l : Listener) (p : Provider) : Provider :=
  match l with
  | OnLoadedMetadata audio =>
      match elements p !! audio with
      | Some el => setAudioState (with_duration (HTMLAudio.duration el)) p
      | None => p
      end
  | OnTimeUpdate audio =>
      match elements p !! audio with
      | Some el => setAudioState (with_currentTime (HTMLAudio.currentTime el)) p
      | None => p
      end
  | OnEnded => setAudioState with_ended p
  end.

(** The listeners an element holds for one event type, in registration order. *)
Definition listeners_for (type : string) (el : HTMLAudio.t) : list Listener :=
  omap (fun '(ty, l) => if decide (ty = type) then Some l else None)
       (HTMLAudio.listeners el).

Definition dispatchEvent (a : nat) (type : string) (p : Provider) : Provider :=
  match elements p !! a with
  | Some el => foldl (fun q l => run_listener l q) p (listeners_for type el)
  | None => p
  end.

(** What the browser does to an element on its own, each time followed by
    the event it fires on that element. *)
Inductive BrowserEvent : Type :=
| MetadataLoaded (a : nat) (d : number)   (* the duration became known: 'loadedmetadata' *)
| TimeAdvanced (a : nat) (t : number)     (* the playback position moved: 'timeupdate' *)
| PlaybackEnded (a : nat)                 (* the end was reached: 'ended' *)
| LoadFailed (a : nat).                   (* the resource could not be loaded: 'error' *)

Definition browser (e : BrowserEvent) (p : Provider) : Provider :=
  match e with
  | MetadataLoaded a d =>
      dispatchEvent a "loadedmetadata" (on_element a (HTMLAudio.set_duration d) p)
  | TimeAdvanced a t =>
      dispatchEvent a "timeupdate" (on_element a (HTMLAudio.set_currentTime t) p)
  | PlaybackEnded a =>
      dispatchEvent a "ended" (on_element a HTMLAudio.pause p)
  | LoadFailed a =>
      dispatchEvent a "error" p
  end.

(** ** Sessions: commands of the views interleaved with browser events *)

Inductive Action : Type :=
| Play (trackUrl trackId : string)
    (* [playTrack] of the latest render *)
| PlayFrom (seen : AudioState) (trackUrl trackId : string)
    (* [playTrack] of an earlier render, which saw [seen]: a second call
       in one handler, a call after an [await] *)
| Pause
| Stop
| Seek (time : number)
| Fire (e : BrowserEvent).

(** What the action does and how it ends for its caller. *)
Definition call (p : Provider) (act : Action) : Completion Provider :=
  match act with
  | Play trackUrl trackId => Normal (playTrack (audioState p) trackUrl trackId p)
  | PlayFrom seen trackUrl trackId => Normal (playTrack seen trackUrl trackId p)
  | Pause => Normal (pauseTrack p)
  | Stop => Normal (stopTrack p)
  | Seek time => setCurrentTime time p
  | Fire e => Normal (browser e p)
  end.

(** The provider after the action.  (The one statement that can throw is
    the first of its operation, so a call that throws changed nothing.) *)
Definition step (p : Provider) (act : Action) : Provider :=
  match call p act with
  | Normal q => q
  | Abrupt _ => p
  end.


(** A closure can only come from a render there was: [renders] are the
    states the renders so far have seen. *)
Definition called_from (renders : list AudioState) (act : Action) : Prop :=
  match act with
  | PlayFrom seen _ _ => seen ∈ renders
  | _ => True
  end.

(** [session renders p]: [p] is the provider after some actions since it
    was mounted, and [renders] the states seen by the renders before the
    one that shows [p]. *)
Inductive session : list AudioState -> Provider -> Prop :=
| session_mount : session [] mount
| session_step renders p act :
    session renders p ->
    called_from (audioState p :: renders) act ->
    session (audioState p :: renders) (step p act).

Definition reachable (p : Provider) : Prop := exists renders, session renders p.

(** The sessions in which every [playTrack] is that of the latest render. *)
Definition of_latest_render (act : Action) : Prop :=
  match act with
  | PlayFrom _ _ _ => False
  | _ => True
  end.

Inductive latest : Provider -> Prop :=
| latest_mount : latest mount
| latest_step p act : latest p -> of_latest_render act -> latest (step p act).

(** An element that may be producing sound. *)
Definition sounding (p : Provider) (a : nat) : Prop :=
  exists el, elements p !! a = Some el /\ HTMLAudio.paused el = false.

(** ** The [useAudio] hook *)

Record AudioContextType : Type := mkContext {
  ctx_audioState : AudioState;
  ctx_playTrack : string -> string -> Provider -> Provider;
  ctx_pauseTrack : Provider -> Provider;
  ctx_stopTrack : Provider -> Provider;
  ctx_setCurrentTime : number -> Provider -> Completion Provider
}.

(** The [value] an [AudioProvider] hands to its subtree when it renders
    the provider [p]: the state it sees and the closures of that render. *)
Definition contextValue (p : Provider) : AudioContextType :=
  {| ctx_audioState := audioState p;
     ctx_playTrack := playTrack (audioState p);
     ctx_pauseTrack := pauseTrack;
     ctx_stopTrack := stopTrack;
     ctx_setCurrentTime := setCurrentTime |}.

(** [useContext(AudioContext)] in a component whose enclosing
    [AudioContext.Provider]s carry the values [enclosing], the nearest
    first: the nearest value, or the default [undefined] given to
    [createContext]. *)
Definition useContext (enclosing : list AudioContextType) : option AudioContextType :=
  head enclosing.

Inductive Outcome (A : Type) : Type :=
| Return (v : A)
| Throw (message : string).
Arguments Return {A} v.
Arguments Throw {A} message.

Definition useAudio (enclosing : list AudioContextType) : Outcome AudioContextType :=
  match useContext enclosing with
  | None => Throw "useAudio must be used within an AudioProvider"
  | Some context => Return context
  end.

(** ** Well-formed providers *)

(** The listeners [playTrack] attaches to the element it creates. *)
Definition registered (a : nat) : list (string * Listener) :=
  [("loadedmetadata", OnLoadedMetadata a); ("timeupdate", OnTimeUpdate a); ("ended", OnEnded)].

(** The two statements [pause(); currentTime = 0] on one element. *)
Definition rewind (el : HTMLAudio.t) : HTMLAudio.t :=
  HTMLAudio.set_currentTime zero (HTMLAudio.pause el).

(** The element as [playTrack] leaves it after [audio.play()]. *)
Definition started (url : string) (a : nat) : HTMLAudio.t :=
  {| HTMLAudio.src := url; HTMLAudio.paused := false; HTMLAudio.currentTime := zero;
     HTMLAudio.duration := NaN; HTMLAudio.listeners := registered a |}.

(** What holds of every provider a session can produce, whichever
    closures were called. *)
Record wf (p : Provider) : Prop := mkWf {
  wf_ref_bound : forall a, audioRef p = Some a -> a < length (elements p);
  wf_no_ref : audioRef p = None -> p = mount;
  wf_silent : forall a, sounding p a -> audioRef p = Some a;
  wf_listeners : forall a el,
    elements p !! a = Some el -> HTMLAudio.listeners el = registered a
}.


(** The number of [new Audio(...)] calls an action makes. *)
Definition allocates (p : Provider) (act : Action) : nat :=
  match act with
  | Play _ trackId =>
      if decide (currentTrack (audioState p) = Some trackId) then 0 else 1
  | PlayFrom seen _ trackId =>
      if decide (currentTrack seen = Some trackId) then
        match audioRef p with
        | Some _ => 0
        | None => 1
        end
      else 1
  | _ => 0
  end.

(** ** Sample sessions *)

Definition track1_playing : Provider := step mount (Play "a.mp3" "track-1").

Definition track1_paused : Provider := step track1_playing Pause.

Definition track1_loaded : Provider := step track1_playing (Fire (MetadataLoaded 0 (Finite 42))).

Definition track1_stopped : Provider := step track1_playing Stop.

Definition track1_ended : Provider := step track1_loaded (Fire (PlaybackEnded 0)).

Definition missing_failed : Provider :=
  step (step mount (Play "missing.mp3" "track-1")) (Fire (LoadFailed 0)).

(** "track-2" requested while "track-1" plays. *)
Definition track2_playing : Provider := step track1_playing (Play "b.mp3" "track-2").

(** "track-1" at second 7. *)
Definition track1_at_7 : Provider := step track1_loaded (Fire (TimeAdvanced 0 (Finite 7))).

(** ** Numbers and strings in the views *)

(** The views compute with numbers.  Here the arithmetic on finite
    numbers is exact (on rationals, without the rounding of doubles), zero
    has no sign, and the special values follow the rules of the
    language. *)

Definition divide (x y : number) : number :=
  match x, y with
  | NaN, _ | _, NaN => NaN
  | Finite a, Finite b =>
      match (b ?= 0)%Q with
      | Eq =>
          match (a ?= 0)%Q with
          | Eq => NaN
          | Gt => Infinity
          | Lt => NegInfinity
          end
      | _ => Finite (a / b)
      end
  | Finite _, _ => zero
  | Infinity, Finite b => if Qle_bool 0 b then Infinity else NegInfinity
  | NegInfinity, Finite b => if Qle_bool 0 b then NegInfinity else Infinity
  | _, _ => NaN
  end.



(** Rounding towards zero. *)
Definition truncate (x : Q) : Z :=
  if Qle_bool 0%Q x then Qfloor x else Qceiling x.

(** [x % y]: the remainder has the sign of [x]. *)
Definition remainder (x y : number) : number :=
  match x, y with
  | Finite a, Finite b =>
      if Qeq_bool b 0 then NaN
      else Finite (a - b * inject_Z (truncate (a / b)))%Q
  | Finite a, Infinity | Finite a, NegInfinity => Finite a
  | _, _ => NaN
  end.

Definition Math_floor (x : number) : number :=
  match x with
  | Finite a => Finite (inject_Z (Qfloor a))
  | _ => x
  end.

(** [x.toString()], as far as it is modelled: the special values, and the
    whole numbers below 10^21 in size, which are printed digit by digit.
    (Beyond that the language switches to exponent notation, and a
    fraction is printed with the digits of its double.) *)
Definition toString (x : number) : option string :=
  match x with
  | NaN => Some "NaN"
  | Infinity => Some "Infinity"
  | NegInfinity => Some "-Infinity"
  | Finite q =>
      let n := Qfloor q in
      if Qeq_bool (inject_Z n) q && (Z.abs n <? 10 ^ 21)%Z then Some (pretty n) else None
  end.

(** The first [n] characters of [rest] followed by [pad] over and over. *)
Fixpoint cycle_take (n : nat) (pad rest : string) : string :=
  match n with
  | 0 => ""
  | S n' =>
      match rest with
      | String c rest' => String c (cycle_take n' pad rest')
      | EmptyString =>
          match pad with
          | String c pad' => String c (cycle_take n' pad pad')
          | EmptyString => ""
          end
      end
  end.

(** [s.padStart(targetLength, padString)]. *)
Definition padStart (targetLength : nat) (padString : string) (s : string) : string :=
  if decide (targetLength <= String.length s) then s
  else cycle_take (targetLength - String.length s) padString padString +:+ s.

(** ** The views: [AudioPlayer] *)

Module AudioPlayer.

Record Props : Type := mkProps {
  trackId : string;
  trackUrl : string;
  trackName : string;
  description : option string
}.

Definition isCurrentTrack (props : Props) (context : AudioContextType) : bool :=
  bool_decide (currentTrack (ctx_audioState context) = Some (trackId props)).

(** The component's own [isPlaying]: this track is current and playing. *)
Definition isPlaying (props : Props) (context : AudioContextType) : bool :=
  isCurrentTrack props context && isPlaying (ctx_audioState context).

(** [handlePlayPause], as captured by the render that saw [context]. *)
Definition handlePlayPause (props : Props) (context : AudioContextType) : Provider -> Provider :=
  if isCurrentTrack props context && isPlaying props context then
    ctx_pauseTrack context
  else
    ctx_playTrack context (trackUrl props) (trackId props).

Definition handleStop (context : AudioContextType) : Provider -> Provider :=
  ctx_stopTrack context.

(** [formatTime]; [None] where [toString] is not modelled. *)
Definition formatTime (seconds : number) : option string :=
  let mins := Math_floor (divide seconds (Finite 60)) in
  let secs := Math_floor (remainder seconds (Finite 60)) in
  match toString mins, toString secs with
  | Some m, Some s => Some (m +:+ ":" +:+ padStart 2 "0" s)
  | _, _ => None
  end.


End AudioPlayer.

(** A click on the play/pause button of a player rendered from [p]. *)
Definition click_play_pause (props : AudioPlayer.Props) (p : Provider) : Provider :=
  AudioPlayer.handlePlayPause props (contextValue p) p.

(** ** The views: [VoiceCard], [VoiceLibrary], [TextToSpeech] *)

(** The argument of [addToast]: a toast without its id. *)
Inductive ToastType : Type := Success | Error | Warning | Info.

Record ToastRequest : Type := mkToast {
  toast_type : ToastType;
  toast_title : string;
  toast_message : option string
}.

(** [addToast], as far as the pages are concerned: the toast requested is
    shown after those already there.  (The id it is given and the timer
    that removes it are left out.) *)
Definition addToast (toast : ToastRequest) (toasts : list ToastRequest) : list ToastRequest :=
  toasts ++ [toast].

(** The helpers [success] and [error] of [useToastHelpers]. *)
Definition toast_success (title : string) (message : option string) :
    list ToastRequest -> list ToastRequest :=
  addToast {| toast_type := Success; toast_title := title; toast_message := message |}.

Definition toast_error (title : string) (message : option string) :
    list ToastRequest -> list ToastRequest :=
  addToast {| toast_type := Error; toast_title := title; toast_message := message |}.

Module Voice.

(** The fields of a [Voice] the audio handlers read. *)
Record t : Type := mk {
  id : string;
  name : string;
  audioUrl : option string
}.

End Voice.

Module VoiceCard.

Definition isCurrentTrack (voice : Voice.t) (context : AudioContextType) : bool :=
  bool_decide (currentTrack (ctx_audioState context) = Some (Voice.id voice)).

(** The card's own [isPlaying]; it turns the button into "Stop". *)
Definition isPlaying (voice : Voice.t) (context : AudioContextType) : bool :=
  isCurrentTrack voice context && isPlaying (ctx_audioState context).

(** [handlePlay]: forward the click to [onPlay], if one was given. *)
Definition handlePlay {W : Type} (onPlay : option (Voice.t -> W -> W)) (voice : Voice.t) :
    W -> W :=
  match onPlay with
  | Some f => f voice
  | None => fun w => w
  end.

End VoiceCard.

Module VoiceLibrary.

(** [handlePlaySample], on the provider and the toasts shown.  A missing
    or empty [audioUrl] is falsy.  ([playTrack] does not throw, so the
    [catch] branch is never taken.) *)
Definition handlePlaySample (context : AudioContextType) (voice : Voice.t)
    (w : Provider * list ToastRequest) : Provider * list ToastRequest :=
  match Voice.audioUrl voice with
  | Some (String _ _ as url) =>
      (ctx_playTrack context url (Voice.id voice) (fst w),
       toast_success "Playing voice sample"
         (Some ("Now playing " +:+ Voice.name voice)) (snd w))
  | _ =>
      (fst w,
       toast_error "Audio not available"
         (Some "This voice sample is not available for preview") (snd w))
  end.

End VoiceLibrary.

Module TextToSpeech.


End TextToSpeech.

(** ** Frame lemmas *)

Lemma alter_snoc {A} (f : A -> A) (l : list A) (x : A) :
  alter f (length l) (l ++ [x]) = l ++ [f x].
Proof.
  replace (length l) with (length l + 0) at 1 by lia.
  by rewrite alter_app_r.
Qed.

Lemma startTrack_eq trackUrl trackId p :
  startTrack trackUrl trackId p =
  {| audioState := {| currentTrack := Some trackId; isPlaying := true;
                      currentTime := zero; duration := zero |};
     audioRef := Some (length (elements p));
     elements :=
       match audioRef p with
       | Some cur => alter rewind cur (elements p)
       | None => elements p
       end ++ [started trackUrl (length (elements p))] |}.
Proof.
  unfold startTrack, new_Audio, set_audioRef, on_element, setAudioState.
  destruct (audioRef p) as [cur|]; cbn [audioState audioRef elements].
  - rewrite list_alter_alter_eq, !length_alter.
    change (HTMLAudio.set_currentTime zero ∘ HTMLAudio.pause) with rewind.
    set (l := alter rewind cur _).
    replace (length (elements p)) with (length l) by apply length_alter.
    by rewrite !alter_snoc.
  - by rewrite !alter_snoc.
Qed.

Lemma playTrack_start seen trackUrl trackId p :
  currentTrack seen <> Some trackId ->
  playTrack seen trackUrl trackId p = startTrack trackUrl trackId p.
Proof.
  intros Hother. unfold playTrack. destruct (audioRef p); [|done]. by rewrite decide_False.
Qed.

Lemma playTrack_toggle seen trackUrl trackId p cur :
  currentTrack seen = Some trackId ->
  audioRef p = Some cur ->
  playTrack seen trackUrl trackId p =
    if isPlaying seen then
      setAudioState (with_isPlaying false) (on_element cur HTMLAudio.pause p)
    else
      setAudioState (with_isPlaying true) (on_element cur HTMLAudio.play p).
Proof. intros Hsame Hcur. unfold playTrack. by rewrite Hcur, decide_True. Qed.

Lemma run_listener_frame l p :
  audioRef (run_listener l p) = audioRef p /\
  elements (run_listener l p) = elements p /\
  currentTrack (audioState (run_listener l p)) = currentTrack (audioState p) /\
  (isPlaying (audioState p) = false -> isPlaying (audioState (run_listener l p)) = false).
Proof.
  destruct l as [a|a|]; cbn; try destruct (elements p !! a); cbn; auto.
Qed.

Lemma run_listeners_frame ls p :
  let q := foldl (fun q l => run_listener l q) p ls in
  audioRef q = audioRef p /\
  elements q = elements p /\
  currentTrack (audioState q) = currentTrack (audioState p) /\
  (isPlaying (audioState p) = false -> isPlaying (audioState q) = false).
Proof.
  revert p. induction ls as [|l ls IH]; intros p; cbn; [auto|].
  destruct (IH (run_listener l p)) as (H1 & H2 & H3 & H4).
  destruct (run_listener_frame l p) as (G1 & G2 & G3 & G4).
  cbn in *. repeat split; [congruence..|auto].
Qed.

Lemma dispatchEvent_frame a type p :
  audioRef (dispatchEvent a type p) = audioRef p /\
  elements (dispatchEvent a type p) = elements p /\
  currentTrack (audioState (dispatchEvent a type p)) = currentTrack (audioState p) /\
  (isPlaying (audioState p) = false ->
   isPlaying (audioState (dispatchEvent a type p)) = false).
Proof.
  unfold dispatchEvent. destruct (elements p !! a) as [el|]; [|auto].
  apply run_listeners_frame.
Qed.

Lemma browser_frame e p :
  audioRef (browser e p) = audioRef p /\
  length (elements (browser e p)) = length (elements p) /\
  currentTrack (audioState (browser e p)) = currentTrack (audioState p) /\
  (isPlaying (audioState p) = false -> isPlaying (audioState (browser e p)) = false).
Proof.
  destruct e as [a d|a t|a|a]; cbn [browser];
    match goal with
    | |- context [dispatchEvent ?a ?ty ?q] =>
        destruct (dispatchEvent_frame a ty q) as (H1 & H2 & H3 & H4)
    end;
    rewrite H1, H2, H3; cbn; rewrite ?length_alter; auto.
Qed.

(** What a seek leaves behind, whether it was accepted or thrown. *)
Lemma step_Seek time p :
  step p (Seek time) =
    match audioRef p with
    | Some cur =>
        if is_finite time then
          setAudioState (with_currentTime time)
            (on_element cur (HTMLAudio.set_currentTime time) p)
        else p
    | None => p
    end.
Proof.
  unfold step, call, setCurrentTime, assign_currentTime.
  destruct (audioRef p); [|done]. by destruct (is_finite time).
Qed.

(** ** Every reachable provider is well formed *)

Lemma wf_mount : wf mount.
Proof.
  split; cbn; try done.
  intros a (el & Hel & _). cbn in Hel. by rewrite lookup_nil in Hel.
Qed.

Lemma wf_on_element a f p :
  wf p ->
  (forall el, HTMLAudio.listeners (f el) = HTMLAudio.listeners el) ->
  (forall el, elements p !! a = Some el ->
              HTMLAudio.paused (f el) = false -> audioRef p = Some a) ->
  wf (on_element a f p).
Proof.
  intros [Hb Hn Hs Hl] Hfl Hfp. split; cbn.
  - intros b Hb'. rewrite length_alter. auto.
  - intros Hnone. rewrite (Hn Hnone). reflexivity.
  - intros b (el & Hel & Hp). cbn in Hel.
    destruct (decide (a = b)) as [->|Hne].
    + rewrite list_lookup_alter_eq in Hel.
      destruct (elements p !! b) as [el0|] eqn:E; [|done].
      injection Hel as <-. eauto.
    + rewrite list_lookup_alter_ne in Hel by done. apply Hs. by exists el.
  - intros b el Hel.
    destruct (decide (a = b)) as [->|Hne].
    + rewrite list_lookup_alter_eq in Hel.
      destruct (elements p !! b) as [el0|] eqn:E; [|done].
      injection Hel as <-. rewrite Hfl. eauto.
    + rewrite list_lookup_alter_ne in Hel by done. eauto.
Qed.

Lemma wf_state q p :
  wf p ->
  audioRef q = audioRef p ->
  elements q = elements p ->
  (audioRef p = None -> q = mount) ->
  wf q.
Proof.
  intros [Hb Hn Hs Hl] Hr He Hm. split.
  - rewrite Hr, He. exact Hb.
  - rewrite Hr. exact Hm.
  - intros a (el & Hel & Hp). rewrite Hr. apply Hs. exists el. by rewrite <- He.
  - rewrite He. exact Hl.
Qed.

Lemma wf_rewind cur p : wf p -> audioRef p = Some cur -> wf (on_element cur rewind p).
Proof. intros Hwf Hcur. apply wf_on_element; [done|done|]. intros el _. done. Qed.

Lemma wf_startTrack trackUrl trackId p : wf p -> wf (startTrack trackUrl trackId p).
Proof.
  intros Hwf. rewrite startTrack_eq.
  set (l' := match audioRef p with Some cur => alter rewind cur (elements p) | None => elements p end).
  assert (Hlen : length l' = length (elements p)).
  { subst l'. destruct (audioRef p); [apply length_alter|done]. }
  assert (Hold : forall a el, l' !! a = Some el ->
            HTMLAudio.paused el = true /\ HTMLAudio.listeners el = registered a).
  { subst l'. intros a el Hel. destruct (audioRef p) as [cur|] eqn:Hcur.
    - destruct (wf_rewind cur p Hwf Hcur) as [_ _ Hs Hl]. cbn in Hs, Hl. split; [|eauto].
      destruct (HTMLAudio.paused el) eqn:Hp; [done|].
      destruct (decide (cur = a)) as [->|Hne].
      + rewrite list_lookup_alter_eq in Hel.
        destruct (elements p !! a); [|done]. injection Hel as <-. done.
      + assert (audioRef p = Some a) by (apply Hs; by exists el). congruence.
    - rewrite (wf_no_ref p Hwf Hcur) in Hel. cbn in Hel. by rewrite lookup_nil in Hel. }
  split; cbn.
  - intros a [= <-]. rewrite length_app. cbn. lia.
  - done.
  - intros a (el & Hel & Hp). cbn in Hel.
    apply lookup_app_Some in Hel as [Hel|[Hge Hel]].
    + apply Hold in Hel as [Hel _]. congruence.
    + rewrite Hlen in Hge, Hel. apply lookup_lt_Some in Hel as Hlt. cbn in Hlt.
      f_equal. lia.
  - intros a el Hel.
    apply lookup_app_Some in Hel as [Hel|[Hge Hel]].
    + by apply Hold in Hel as [_ Hel].
    + rewrite Hlen in Hge, Hel. apply lookup_lt_Some in Hel as Hlt. cbn in Hlt.
      assert (a = length (elements p)) as -> by lia.
      rewrite Nat.sub_diag in Hel. by injection Hel as <-.
Qed.

Lemma wf_playTrack seen trackUrl trackId p : wf p -> wf (playTrack seen trackUrl trackId p).
Proof.
  intros Hwf. unfold playTrack.
  destruct (audioRef p) as [cur|] eqn:Hcur; [|by apply wf_startTrack].
  destruct (decide _) as [Hsame|Hdiff]; [|by apply wf_startTrack].
  destruct (isPlaying seen).
  - apply (wf_state _ (on_element cur HTMLAudio.pause p)); cbn; try done.
    + apply wf_on_element; done.
    + by rewrite Hcur.
  - apply (wf_state _ (on_element cur HTMLAudio.play p)); cbn; try done.
    + apply wf_on_element; done.
    + by rewrite Hcur.
Qed.

Lemma wf_pauseTrack p : wf p -> wf (pauseTrack p).
Proof.
  intros Hwf. unfold pauseTrack.
  destruct (audioRef p) as [cur|] eqn:Hcur; [|done].
  apply (wf_state _ (on_element cur HTMLAudio.pause p)); cbn; try done.
  - apply wf_on_element; done.
  - by rewrite Hcur.
Qed.

Lemma wf_stopTrack p : wf p -> wf (stopTrack p).
Proof.
  intros Hwf. unfold stopTrack.
  destruct (audioRef p) as [cur|] eqn:Hcur.
  - apply (wf_state _ (on_element cur rewind p)); cbn; try done.
    + by apply wf_rewind.
    + unfold rewind. by rewrite list_alter_alter_eq.
    + by rewrite Hcur.
  - rewrite (wf_no_ref p Hwf Hcur). exact wf_mount.
Qed.

Lemma wf_Seek time p : wf p -> wf (step p (Seek time)).
Proof.
  intros Hwf. rewrite step_Seek.
  destruct (audioRef p) as [cur|] eqn:Hcur; [|done].
  destruct (is_finite time); [|done].
  apply (wf_state _ (on_element cur (HTMLAudio.set_currentTime time) p)); cbn; try done.
  - apply wf_on_element; [done|done|]. intros el Hel Hp. apply (wf_silent p Hwf). by exists el.
  - by rewrite Hcur.
Qed.

Lemma wf_dispatchEvent a type p : wf p -> wf (dispatchEvent a type p).
Proof.
  intros Hwf. destruct (dispatchEvent_frame a type p) as (H1 & H2 & H3 & H4).
  apply (wf_state _ p); try done.
  intros Hnone. unfold dispatchEvent.
  rewrite (wf_no_ref p Hwf Hnone). cbn. by rewrite lookup_nil.
Qed.

Lemma wf_browser e p : wf p -> wf (browser e p).
Proof.
  intros Hwf.
  destruct e as [a d|a t|a|a]; cbn [browser]; apply wf_dispatchEvent; try done;
    apply wf_on_element; try done.
  - intros el Hel Hp. apply (wf_silent p Hwf). by exists el.
  - intros el Hel Hp. apply (wf_silent p Hwf). by exists el.
Qed.

Lemma wf_step p act : wf p -> wf (step p act).
Proof.
  destruct act; try apply wf_Seek; unfold step; cbn [call];
    auto using wf_playTrack, wf_pauseTrack, wf_stopTrack, wf_browser.
Qed.

Lemma session_wf renders p : session renders p -> wf p.
Proof. induction 1; auto using wf_mount, wf_step. Qed.

Lemma reachable_wf p : reachable p -> wf p.
Proof. intros [renders Hs]. by apply (session_wf renders). Qed.

Lemma latest_reachable p : latest p -> reachable p.
Proof.
  induction 1 as [|p act _ [renders IH] Hact]; [exists []; constructor|].
  exists (audioState p :: renders). constructor; [done|]. by destruct act.
Qed.

Lemma reachable_mount : reachable mount.
Proof. exists []. constructor. Qed.


(** ** Sessions with every call from the latest render *)





(** ** Facts used by several laws *)

(** A current track always has its element behind [audioRef]. *)
Lemma current_track_has_element p trackId :
  reachable p -> currentTrack (audioState p) = Some trackId ->
  exists cur, audioRef p = Some cur /\ cur < length (elements p).
Proof.
  intros Hreach Htrack. pose proof (reachable_wf p Hreach) as Hwf.
  destruct (audioRef p) as [cur|] eqn:Hcur.
  - exists cur. split; [done|]. by apply (wf_ref_bound p Hwf).
  - rewrite (wf_no_ref p Hwf Hcur) in Htrack. discriminate.
Qed.



Lemma listeners_for_each a el :
  HTMLAudio.listeners el = registered a ->
  listeners_for "loadedmetadata" el = [OnLoadedMetadata a] /\
  listeners_for "timeupdate" el = [OnTimeUpdate a] /\
  listeners_for "ended" el = [OnEnded] /\
  listeners_for "error" el = [].
Proof. intros Hl. unfold listeners_for. rewrite Hl. repeat split. Qed.

Lemma browser_existing p a el :
  wf p -> elements p !! a = Some el ->
  (forall d, browser (MetadataLoaded a d) p =
             setAudioState (with_duration d) (on_element a (HTMLAudio.set_duration d) p)) /\
  (forall t, browser (TimeAdvanced a t) p =
             setAudioState (with_currentTime t) (on_element a (HTMLAudio.set_currentTime t) p)) /\
  browser (PlaybackEnded a) p = setAudioState with_ended (on_element a HTMLAudio.pause p) /\
  browser (LoadFailed a) p = p.
Proof.
  intros Hwf Hel. pose proof (wf_listeners p Hwf a el Hel) as Hl.
  repeat split; intros; cbn [browser]; unfold dispatchEvent; cbn [elements on_element];
    rewrite ?list_lookup_alter_eq, Hel; cbn [fmap option_fmap option_map].
  - destruct (listeners_for_each a (HTMLAudio.set_duration d el) Hl) as (-> & _).
    cbn. by rewrite list_lookup_alter_eq, Hel.
  - destruct (listeners_for_each a (HTMLAudio.set_currentTime t el) Hl) as (_ & -> & _).
    cbn. by rewrite list_lookup_alter_eq, Hel.
  - by destruct (listeners_for_each a (HTMLAudio.pause el) Hl) as (_ & _ & -> & _).
  - by destruct (listeners_for_each a el Hl) as (_ & _ & _ & ->).
Qed.

Lemma alter_keeps (f : HTMLAudio.t -> HTMLAudio.t) (a b : nat) (l : list HTMLAudio.t) el :
  (forall x, HTMLAudio.src (f x) = HTMLAudio.src x /\
             HTMLAudio.listeners (f x) = HTMLAudio.listeners x) ->
  l !! b = Some el ->
  exists el', alter f a l !! b = Some el' /\
    HTMLAudio.src el' = HTMLAudio.src el /\
    HTMLAudio.listeners el' = HTMLAudio.listeners el.
Proof.
  intros Hf Hel. destruct (decide (a = b)) as [->|Hne].
  - exists (f el). rewrite list_lookup_alter_eq, Hel. split; [done|apply Hf].
  - exists el. by rewrite list_lookup_alter_ne.
Qed.

Ltac same_alter :=
  rewrite ?list_alter_alter_eq; apply list_alter_ext; [by intros []|done].

Ltac latest_session :=
  apply latest_reachable;
  unfold track1_at_7, track1_ended, track1_loaded, track1_stopped, track1_paused,
    track2_playing, track1_playing, missing_failed;
  repeat constructor.

(** ** Laws of the operations *)




(** C2 as stated fails: when "track-1" is already playing, two further
    calls of [playTrack] for it, each from the latest render, pause and
    then resume it. *)
Lemma playTrack_twice_counterexample :
  reachable track1_playing /\
  ~ (isPlaying (audioState
       (step (step track1_playing (Play "a.mp3" "track-1")) (Play "a.mp3" "track-1"))) = false).
Proof.
  split.
  - latest_session.
  - vm_compute. discriminate.
Qed.

(** C2, amended.  From a reachable provider, two calls of [playTrack] for
    [trackId] in a row, the second from the render that follows the first,
    leave [trackId] current; they leave it paused unless it was current and
    playing before, in which case they pause and then resume it and leave
    it playing. *)
Theorem playTrack_twice trackUrl trackId p :
  reachable p ->
  let q := step (step p (Play trackUrl trackId)) (Play trackUrl trackId) in
  currentTrack (audioState q) = Some trackId /\
  isPlaying (audioState q) =
    bool_decide (currentTrack (audioState p) = Some trackId) && isPlaying (audioState p).
Proof.
  intros Hreach. unfold step. cbn [call].
  destruct (decide (currentTrack (audioState p) = Some trackId)) as [Hsame|Hdiff].
  - rewrite (bool_decide_eq_true_2 _ Hsame).
    destruct (current_track_has_element p _ Hreach Hsame) as (cur & Hcur & _).
    rewrite (playTrack_toggle _ _ _ p cur Hsame Hcur).
    destruct (isPlaying (audioState p)) eqn:Hplay.
    + rewrite (playTrack_toggle _ _ _ _ cur) by done. cbn. done.
    + rewrite (playTrack_toggle _ _ _ _ cur) by done. cbn. done.
  - rewrite (bool_decide_eq_false_2 _ Hdiff).
    rewrite (playTrack_start _ _ _ p Hdiff), startTrack_eq.
    rewrite (playTrack_toggle _ _ _ _ (length (elements p))) by done. cbn. done.
Qed.

(** C2 amended, from the freshly mounted provider. *)
Lemma playTrack_twice_witness :
  let q := step (step mount (Play "a.mp3" "track-1")) (Play "a.mp3" "track-1") in
  currentTrack (audioState q) = Some "track-1" /\
  isPlaying (audioState q) =
    bool_decide (currentTrack (audioState mount) = Some "track-1") &&
    isPlaying (audioState mount).
Proof.
  apply (playTrack_twice "a.mp3" "track-1" mount).
  exact reachable_mount.
Defined.

(** C3 as stated fails in its last clause: after [stopTrack] the element
    is still held by [audioRef]. *)
Lemma stopTrack_counterexample :
  ~ (audioState (stopTrack track1_playing) = initialAudioState /\
     audioRef (stopTrack track1_playing) = None).
Proof. vm_compute. intros [_ H]. discriminate. Qed.

(** C3, amended.  From every provider, [stopTrack] leaves the state at
    the full default [{currentTrack: null, isPlaying: false, currentTime: 0,
    duration: 0}]; the element behind [audioRef], if any, is paused and
    rewound to 0 and stays behind [audioRef]. *)
Theorem stopTrack_resets p :
  audioState (stopTrack p) = initialAudioState /\
  audioRef (stopTrack p) = audioRef p /\
  elements (stopTrack p) =
    match audioRef p with
    | Some cur => alter rewind cur (elements p)
    | None => elements p
    end.
Proof.
  unfold stopTrack. destruct (audioRef p) as [cur|] eqn:Hcur; cbn; rewrite ?Hcur.
  - repeat split. unfold rewind. by rewrite list_alter_alter_eq.
  - done.
Qed.




(** C5 as stated fails: when "track-1" (duration 42) ends, it stays the
    current track and keeps its duration. *)
Lemma ended_counterexample :
  isPlaying (audioState track1_loaded) = true /\
  ~ (currentTrack (audioState track1_ended) = None /\
     same_number (duration (audioState track1_ended)) zero).
Proof.
  split; [reflexivity|].
  vm_compute. intros [H _]. discriminate.
Qed.

(** C5, amended.  When an element of a reachable provider reaches its end,
    the 'ended' listener sets [isPlaying] to false and [currentTime] to 0
    and keeps [currentTrack] and [duration] as they were. *)
Theorem ended_keeps_track a p :
  reachable p ->
  a < length (elements p) ->
  audioState (browser (PlaybackEnded a) p) =
    {| currentTrack := currentTrack (audioState p); isPlaying := false;
       currentTime := zero; duration := duration (audioState p) |}.
Proof.
  intros Hreach Hlt. destruct (lookup_lt_is_Some_2 _ _ Hlt) as [el Hel].
  destruct (browser_existing p a el (reachable_wf p Hreach) Hel) as (_ & _ & -> & _).
  reflexivity.
Qed.

(** C5 amended, at the end of "track-1". *)
Lemma ended_keeps_track_witness :
  audioState track1_ended =
    {| currentTrack := Some "track-1"; isPlaying := false;
       currentTime := zero; duration := Finite 42 |}.
Proof.
  apply (ended_keeps_track 0 track1_loaded).
  - latest_session.
  - vm_compute. lia.
Defined.



(** C7 as stated fails: with "track-1" of duration 42 current, a seek to
    100 leaves [currentTime] at 100 and a seek to -5 leaves it at -5. *)
Lemma seek_clamp_counterexample :
  ~ same_number (currentTime (audioState (step track1_loaded (Seek (Finite 100)))))
                (duration (audioState (step track1_loaded (Seek (Finite 100))))) /\
  ~ same_number (currentTime (audioState (step track1_loaded (Seek (Finite (-5)))))) zero.
Proof. split; vm_compute; discriminate. Qed.

(** C7, amended.  With a track current in a reachable provider,
    [setCurrentTime time] with a finite [time] returns normally and stores
    [time] as it is, in range or not, both as the state's [currentTime] and
    on the element behind [audioRef], the other fields of the state
    unchanged; with a [time] that is [NaN] or an infinity it throws a
    [TypeError] to its caller and leaves the provider as it was. *)
Theorem setCurrentTime_stores time trackId p :
  reachable p ->
  currentTrack (audioState p) = Some trackId ->
  if is_finite time then
    exists q cur el,
      setCurrentTime time p = Normal q /\
      audioState q =
        {| currentTrack := Some trackId; isPlaying := isPlaying (audioState p);
           currentTime := time; duration := duration (audioState p) |} /\
      audioRef q = Some cur /\
      elements q !! cur = Some el /\
      HTMLAudio.currentTime el = time
  else
    setCurrentTime time p = Abrupt TypeError /\ step p (Seek time) = p.
Proof.
  intros Hreach Htrack.
  destruct (current_track_has_element p trackId Hreach Htrack) as (cur & Hcur & Hlt).
  destruct (lookup_lt_is_Some_2 _ _ Hlt) as [el Hel].
  unfold step, call, setCurrentTime, assign_currentTime. rewrite Hcur.
  destruct (is_finite time); [|done].
  eexists _, cur, (HTMLAudio.set_currentTime time el). split; [done|]. cbn.
  unfold with_currentTime. rewrite Htrack. by rewrite list_lookup_alter_eq, Hel.
Qed.

(** C7 amended, seeking "track-1" (duration 42) to 100. *)
Lemma setCurrentTime_stores_witness :
  exists q cur el,
    setCurrentTime (Finite 100) track1_loaded = Normal q /\
    audioState q =
      {| currentTrack := Some "track-1"; isPlaying := isPlaying (audioState track1_loaded);
         currentTime := Finite 100; duration := duration (audioState track1_loaded) |} /\
    audioRef q = Some cur /\
    elements q !! cur = Some el /\
    HTMLAudio.currentTime el = Finite 100.
Proof.
  apply (setCurrentTime_stores (Finite 100) "track-1" track1_loaded).
  - latest_session.
  - vm_compute. reflexivity.
Defined.

(** C8 as stated fails: after play and stop no track is current, yet a
    seek to 5 changes the provider. *)
Lemma seek_idle_counterexample :
  currentTrack (audioState track1_stopped) = None /\
  ~ (step track1_stopped (Seek (Finite 5)) = track1_stopped).
Proof. split; [reflexivity|]. vm_compute. discriminate. Qed.

(** C8, amended.  With no track current in a reachable provider,
    [setCurrentTime time] changes nothing as long as no audio element was
    ever created.  Once one is held by [audioRef] (as after play and stop),
    a finite [time] is stored as the state's [currentTime] and as the
    position of that element, [currentTrack] staying null and [isPlaying]
    and [duration] as they were; a [time] that is [NaN] or an infinity
    throws a [TypeError] and changes nothing. *)
Theorem setCurrentTime_idle time p :
  reachable p ->
  currentTrack (audioState p) = None ->
  match audioRef p with
  | None => setCurrentTime time p = Normal p
  | Some cur =>
      if is_finite time then
        exists q el,
          setCurrentTime time p = Normal q /\
          audioState q =
            {| currentTrack := None; isPlaying := isPlaying (audioState p);
               currentTime := time; duration := duration (audioState p) |} /\
          audioRef q = Some cur /\
          elements q !! cur = Some el /\
          HTMLAudio.currentTime el = time
      else
        setCurrentTime time p = Abrupt TypeError /\ step p (Seek time) = p
  end.
Proof.
  intros Hreach Hidle. pose proof (reachable_wf p Hreach) as Hwf.
  unfold step, call, setCurrentTime, assign_currentTime.
  destruct (audioRef p) as [cur|] eqn:Hcur; [|done].
  destruct (lookup_lt_is_Some_2 _ _ (wf_ref_bound p Hwf cur Hcur)) as [el Hel].
  destruct (is_finite time); [|done].
  eexists _, (HTMLAudio.set_currentTime time el). split; [done|]. cbn.
  unfold with_currentTime. rewrite Hidle. by rewrite list_lookup_alter_eq, Hel.
Qed.

(** C8 amended, after play and stop. *)
Lemma setCurrentTime_idle_witness :
  exists q el,
    setCurrentTime (Finite 5) track1_stopped = Normal q /\
    audioState q =
      {| currentTrack := None; isPlaying := isPlaying (audioState track1_stopped);
         currentTime := Finite 5; duration := duration (audioState track1_stopped) |} /\
    audioRef q = Some 0 /\
    elements q !! 0 = Some el /\
    HTMLAudio.currentTime el = Finite 5.
Proof.
  apply (setCurrentTime_idle (Finite 5) track1_stopped).
  - latest_session.
  - reflexivity.
Defined.




(** C10.  Outside every [AudioProvider], [useAudio] throws the error
    'useAudio must be used within an AudioProvider'; inside one it returns
    the value of the nearest provider, never an undefined one, and so the
    same value to every consumer under that provider. *)
Theorem useAudio_spec :
  useAudio [] = Throw "useAudio must be used within an AudioProvider" /\
  (forall context outer, useAudio (context :: outer) = Return context) /\
  (forall p outer, useAudio (contextValue p :: outer) = Return (contextValue p)).
Proof. repeat split. Qed.

(** ** Further laws of the provider *)

(** X1.  In every reachable provider an element that is not paused is the
    one behind [audioRef]: no two elements can be sounding at once. *)
Theorem one_element_sounding p a :
  reachable p ->
  sounding p a ->
  audioRef p = Some a /\ forall b, sounding p b -> b = a.
Proof.
  intros Hreach Ha. pose proof (reachable_wf p Hreach) as Hwf.
  pose proof (wf_silent p Hwf a Ha) as Hcur. split; [done|].
  intros b Hb. apply (wf_silent p Hwf) in Hb. congruence.
Qed.

(** X1, after "track-1" was replaced by "track-2". *)
Lemma one_element_sounding_witness :
  audioRef track2_playing = Some 1 /\ forall b, sounding track2_playing b -> b = 1.
Proof.
  apply (one_element_sounding track2_playing 1).
  - latest_session.
  - eexists. split; [vm_compute; reflexivity|reflexivity].
Defined.





(** X5.  Every element of a reachable provider carries exactly the three
    listeners [playTrack] attached when it created it, each once and in that
    order: pausing, resuming, seeking and stopping never add or remove one. *)
Theorem listeners_attached_once p a el :
  reachable p ->
  elements p !! a = Some el ->
  HTMLAudio.listeners el =
    [("loadedmetadata", OnLoadedMetadata a); ("timeupdate", OnTimeUpdate a);
     ("ended", OnEnded)].
Proof. intros Hreach Hel. exact (wf_listeners p (reachable_wf p Hreach) a el Hel). Qed.

(** X5, for "track-1" after a pause and a resume. *)
Lemma listeners_attached_once_witness :
  HTMLAudio.listeners (HTMLAudio.play (started "a.mp3" 0)) =
    [("loadedmetadata", OnLoadedMetadata 0); ("timeupdate", OnTimeUpdate 0);
     ("ended", OnEnded)].
Proof.
  apply (listeners_attached_once (step track1_paused (Play "a.mp3" "track-1")) 0).
  - latest_session.
  - reflexivity.
Defined.

(** X6.  From a reachable provider, an action creates exactly one new
    audio element when it is a [playTrack] that takes the start branch (the
    state seen by its render does not have the track as current, or no
    element is held yet) and none otherwise: toggling, pausing, stopping,
    seeking and the callbacks never create or drop an element. *)
Theorem step_allocates p act :
  reachable p ->
  length (elements (step p act)) = length (elements p) + allocates p act.
Proof.
  intros Hreach. pose proof (reachable_wf p Hreach) as Hwf.
  assert (Hplay : forall seen trackUrl trackId,
            length (elements (playTrack seen trackUrl trackId p)) =
            length (elements p) +
            (if decide (currentTrack seen = Some trackId) then
               match audioRef p with Some _ => 0 | None => 1 end
             else 1)).
  { intros seen trackUrl trackId. unfold playTrack.
    destruct (audioRef p) as [cur|] eqn:Hcur.
    - destruct (decide _) as [Hsame|Hdiff].
      + destruct (isPlaying seen); cbn; rewrite length_alter; lia.
      + rewrite startTrack_eq, Hcur. cbn. rewrite length_app, length_alter. cbn. lia.
    - rewrite startTrack_eq, Hcur. cbn. rewrite length_app. cbn. case_decide; lia. }
  destruct act as [trackUrl trackId|seen trackUrl trackId| | |time|e];
    try rewrite step_Seek; unfold step; cbn [call allocates].
  - rewrite Hplay. case_decide as Hsame; [|done].
    by destruct (current_track_has_element p _ Hreach Hsame) as (cur & -> & _).
  - apply Hplay.
  - unfold pauseTrack. destruct (audioRef p); cbn; rewrite ?length_alter; lia.
  - unfold stopTrack. destruct (audioRef p); cbn; rewrite ?length_alter; lia.
  - destruct (audioRef p); [|lia]. destruct (is_finite time); cbn; rewrite ?length_alter; lia.
  - destruct (browser_frame e p) as (_ & -> & _). lia.
Qed.

(** X6, a second [playTrack] for "track-1" through the closure of the
    first render, which saw no current track: one more element. *)
Lemma step_allocates_witness :
  length (elements (step track1_playing (PlayFrom (audioState mount) "a.mp3" "track-1"))) =
  length (elements track1_playing) +
  allocates track1_playing (PlayFrom (audioState mount) "a.mp3" "track-1").
Proof.
  apply (step_allocates track1_playing (PlayFrom (audioState mount) "a.mp3" "track-1")).
  latest_session.
Defined.

(** X7.  When the metadata of any element of a reachable provider arrives
    (the current element or one that was replaced since), the listener
    sets the state's [duration] to that element's duration and leaves the
    other three fields as they were. *)
Theorem metadata_sets_duration p a d :
  reachable p ->
  a < length (elements p) ->
  audioState (browser (MetadataLoaded a d) p) =
    {| currentTrack := currentTrack (audioState p); isPlaying := isPlaying (audioState p);
       currentTime := currentTime (audioState p); duration := d |}.
Proof.
  intros Hreach Hlt. destruct (lookup_lt_is_Some_2 _ _ Hlt) as [el Hel].
  destruct (browser_existing p a el (reachable_wf p Hreach) Hel) as (-> & _). done.
Qed.

(** X7, the duration 42 of "track-1" arriving after "track-2" replaced it. *)
Lemma metadata_sets_duration_witness :
  audioState (browser (MetadataLoaded 0 (Finite 42)) track2_playing) =
    {| currentTrack := currentTrack (audioState track2_playing);
       isPlaying := isPlaying (audioState track2_playing);
       currentTime := currentTime (audioState track2_playing); duration := Finite 42 |}.
Proof.
  apply (metadata_sets_duration track2_playing 0 (Finite 42)).
  - latest_session.
  - vm_compute. lia.
Defined.

(** X8.  When the playback position of any element of a reachable provider
    moves, the listener sets the state's [currentTime] to that element's
    position and leaves the other three fields as they were. *)
Theorem timeupdate_sets_position p a t :
  reachable p ->
  a < length (elements p) ->
  audioState (browser (TimeAdvanced a t) p) =
    {| currentTrack := currentTrack (audioState p); isPlaying := isPlaying (audioState p);
       currentTime := t; duration := duration (audioState p) |}.
Proof.
  intros Hreach Hlt. destruct (lookup_lt_is_Some_2 _ _ Hlt) as [el Hel].
  destruct (browser_existing p a el (reachable_wf p Hreach) Hel) as (_ & -> & _). done.
Qed.

(** X8, "track-1" reaching second 7. *)
Lemma timeupdate_sets_position_witness :
  audioState (browser (TimeAdvanced 0 (Finite 7)) track1_loaded) =
    {| currentTrack := currentTrack (audioState track1_loaded);
       isPlaying := isPlaying (audioState track1_loaded);
       currentTime := Finite 7; duration := duration (audioState track1_loaded) |}.
Proof.
  apply (timeupdate_sets_position track1_loaded 0 (Finite 7)).
  - latest_session.
  - vm_compute. lia.
Defined.

(** X9.  No action ever removes an element, changes the URL it was created
    for, or changes its listeners: whatever exists at an index keeps
    existing there with the same [src] and the same listeners. *)
Theorem step_keeps_elements p act a el :
  elements p !! a = Some el ->
  exists el', elements (step p act) !! a = Some el' /\
    HTMLAudio.src el' = HTMLAudio.src el /\
    HTMLAudio.listeners el' = HTMLAudio.listeners el.
Proof.
  intros Hel.
  assert (Hrewind : forall cur, exists el', alter rewind cur (elements p) !! a = Some el' /\
            HTMLAudio.src el' = HTMLAudio.src el /\
            HTMLAudio.listeners el' = HTMLAudio.listeners el)
    by (intros cur; by apply alter_keeps).
  assert (Hstart : forall trackUrl trackId,
            exists el', elements (startTrack trackUrl trackId p) !! a = Some el' /\
              HTMLAudio.src el' = HTMLAudio.src el /\
              HTMLAudio.listeners el' = HTMLAudio.listeners el).
  { intros trackUrl trackId. rewrite startTrack_eq. cbn.
    destruct (audioRef p) as [cur|].
    - destruct (Hrewind cur) as (el' & H1 & H2). exists el'.
      split; [by apply lookup_app_l_Some|done].
    - exists el. split; [by apply lookup_app_l_Some|done]. }
  assert (Hplay : forall seen trackUrl trackId,
            exists el', elements (playTrack seen trackUrl trackId p) !! a = Some el' /\
              HTMLAudio.src el' = HTMLAudio.src el /\
              HTMLAudio.listeners el' = HTMLAudio.listeners el).
  { intros seen trackUrl trackId. unfold playTrack.
    destruct (audioRef p) as [cur|] eqn:Hcur; [|apply Hstart].
    destruct (decide _); [|apply Hstart].
    destruct (isPlaying seen); cbn; by apply alter_keeps. }
  destruct act as [trackUrl trackId|seen trackUrl trackId| | |time|e];
    try rewrite step_Seek; unfold step; cbn [call]; try apply Hplay.
  - unfold pauseTrack. destruct (audioRef p); cbn; [by apply alter_keeps|eauto].
  - unfold stopTrack. destruct (audioRef p) as [cur|]; cbn; [|eauto].
    rewrite list_alter_alter_eq. apply Hrewind.
  - destruct (audioRef p); [|eauto].
    destruct (is_finite time); cbn; [by apply alter_keeps|eauto].
  - destruct e as [b d|b t|b|b]; cbn [browser];
      match goal with
      | |- context [dispatchEvent ?b ?ty ?q] =>
          destruct (dispatchEvent_frame b ty q) as (_ & -> & _)
      end; cbn; [by apply alter_keeps..|eauto].
Qed.

(** X9, "track-1" after "track-2" replaced it. *)
Lemma step_keeps_elements_witness :
  exists el', elements (step track1_playing (Play "b.mp3" "track-2")) !! 0 = Some el' /\
    HTMLAudio.src el' = HTMLAudio.src (started "a.mp3" 0) /\
    HTMLAudio.listeners el' = HTMLAudio.listeners (started "a.mp3" 0).
Proof.
  apply (step_keeps_elements track1_playing (Play "b.mp3" "track-2") 0).
  reflexivity.
Defined.

(** X10.  From a reachable provider no action clears [audioRef]: once it
    holds an element it keeps holding one, the same or a later one. *)
Theorem audioRef_never_cleared p act cur :
  reachable p ->
  audioRef p = Some cur ->
  exists cur', audioRef (step p act) = Some cur' /\ cur <= cur'.
Proof.
  intros Hreach Hcur.
  pose proof (wf_ref_bound p (reachable_wf p Hreach) cur Hcur) as Hlt.
  assert (Hplay : forall seen trackUrl trackId,
            exists cur', audioRef (playTrack seen trackUrl trackId p) = Some cur' /\
                         cur <= cur').
  { intros. unfold playTrack. rewrite Hcur.
    destruct (decide _); [destruct (isPlaying seen); cbn; eauto|].
    rewrite startTrack_eq. cbn. eexists. split; [done|lia]. }
  destruct act as [trackUrl trackId|seen trackUrl trackId| | |time|e];
    try rewrite step_Seek; unfold step; cbn [call]; try apply Hplay.
  - unfold pauseTrack. rewrite Hcur. cbn. eauto.
  - unfold stopTrack. rewrite Hcur. cbn. eauto.
  - rewrite Hcur. destruct (is_finite time); cbn; eauto.
  - destruct (browser_frame e p) as (-> & _). eauto.
Qed.

(** X10, stopping "track-1". *)
Lemma audioRef_never_cleared_witness :
  exists cur', audioRef (step track1_playing Stop) = Some cur' /\ 0 <= cur'.
Proof.
  apply (audioRef_never_cleared track1_playing Stop 0).
  - latest_session.
  - reflexivity.
Defined.

(** ** How the operations compose *)

(** X11.  Pausing twice is the same as pausing once, from every provider. *)
Theorem pauseTrack_idempotent p : pauseTrack (pauseTrack p) = pauseTrack p.
Proof.
  unfold pauseTrack. destruct (audioRef p) as [cur|] eqn:Hcur; cbn; rewrite Hcur; [|done].
  unfold setAudioState, on_element. cbn. f_equal. same_alter.
Qed.

(** X12.  [stopTrack] absorbs what came just before it: stopping after a
    pause, after a seek (accepted or thrown) or after another stop gives
    the same provider as stopping at once. *)
Theorem stopTrack_absorbs p time :
  stopTrack (pauseTrack p) = stopTrack p /\
  stopTrack (step p (Seek time)) = stopTrack p /\
  stopTrack (stopTrack p) = stopTrack p.
Proof.
  rewrite step_Seek. unfold stopTrack, pauseTrack.
  destruct (audioRef p) as [cur|] eqn:Hcur; cbn; rewrite ?Hcur; [|done].
  split; [|split].
  - unfold setAudioState, on_element. cbn. f_equal. same_alter.
  - destruct (is_finite time); cbn; rewrite Hcur; [|done].
    unfold setAudioState, on_element. cbn. f_equal. same_alter.
  - unfold setAudioState, on_element. cbn. f_equal. same_alter.
Qed.

(** X13.  Of two seeks in a row the last one counts when it is accepted:
    with a finite second time the result is that of the second seek alone;
    with a second time that is [NaN] or an infinity the second seek throws
    and the result is that of the first. *)
Theorem setCurrentTime_last_wins p t1 t2 :
  step (step p (Seek t1)) (Seek t2) =
    if is_finite t2 then step p (Seek t2) else step p (Seek t1).
Proof.
  rewrite !step_Seek. destruct (audioRef p) as [cur|] eqn:Hcur.
  - destruct (is_finite t1), (is_finite t2); cbn; rewrite ?Hcur; try done.
    unfold setAudioState, on_element. cbn. f_equal. same_alter.
  - rewrite Hcur. by destruct (is_finite t2).
Qed.

(** X21.  Two [playTrack] calls for one track through the closure of one
    render take the same branch twice.  When that render did not see the
    track as current, both start it: from a reachable provider two elements
    are created, the first of them is left paused and rewound, the second
    is behind [audioRef], and the state is that of a track just started. *)
Theorem playTrack_twice_one_render seen trackUrl trackId p :
  reachable p ->
  currentTrack seen <> Some trackId ->
  let q := playTrack seen trackUrl trackId (playTrack seen trackUrl trackId p) in
  let first := length (elements p) in
  audioState q = {| currentTrack := Some trackId; isPlaying := true;
                    currentTime := zero; duration := zero |} /\
  length (elements q) = first + 2 /\
  audioRef q = Some (first + 1) /\
  elements q !! first = Some (rewind (started trackUrl first)).
Proof.
  intros Hreach Hother q first. subst q.
  rewrite !playTrack_start by done.
  set (p1 := startTrack trackUrl trackId p).
  assert (Hlen1 : length (elements p1) = first + 1).
  { subst p1. rewrite startTrack_eq. cbn. rewrite length_app. cbn.
    destruct (audioRef p); rewrite ?length_alter; done. }
  assert (Hfirst : elements p1 !! first = Some (started trackUrl first)).
  { subst p1. rewrite startTrack_eq. cbn. rewrite lookup_app_r.
    - replace (first - _) with 0; [done|]. destruct (audioRef p); rewrite ?length_alter; lia.
    - destruct (audioRef p); rewrite ?length_alter; lia. }
  assert (Href1 : audioRef p1 = Some first) by (subst p1; by rewrite startTrack_eq).
  clearbody p1. rewrite (startTrack_eq _ _ p1), Href1, Hlen1. cbn.
  split; [done|]. split; [|split; [done|]].
  - rewrite length_app, length_alter. cbn. lia.
  - rewrite lookup_app_l by (rewrite length_alter; lia).
    by rewrite list_lookup_alter_eq, Hfirst.
Qed.

(** X21, two calls from the first render of a fresh provider. *)
Lemma playTrack_twice_one_render_witness :
  let q := playTrack (audioState mount) "a.mp3" "track-1"
             (playTrack (audioState mount) "a.mp3" "track-1" mount) in
  audioState q = {| currentTrack := Some "track-1"; isPlaying := true;
                    currentTime := zero; duration := zero |} /\
  length (elements q) = 0 + 2 /\
  audioRef q = Some (0 + 1) /\
  elements q !! 0 = Some (rewind (started "a.mp3" 0)).
Proof.
  apply (playTrack_twice_one_render (audioState mount) "a.mp3" "track-1" mount).
  - exact reachable_mount.
  - discriminate.
Defined.

(** X22.  After a stop, a [playTrack] through the closure of a render
    that saw the track current and paused takes the resume branch: in a
    provider that holds an element it creates none, starts the stopped
    element again and sets [isPlaying] while [currentTrack] stays null. *)
Theorem playTrack_kept_after_stop seen trackUrl trackId p cur :
  audioRef p = Some cur ->
  currentTrack seen = Some trackId ->
  isPlaying seen = false ->
  let q := playTrack seen trackUrl trackId (stopTrack p) in
  audioState q = {| currentTrack := None; isPlaying := true;
                    currentTime := zero; duration := zero |} /\
  audioRef q = Some cur /\
  elements q = alter (HTMLAudio.play ∘ rewind) cur (elements p).
Proof.
  intros Hcur Hsame Hplay q. subst q.
  assert (Hstop : audioRef (stopTrack p) = Some cur)
    by (unfold stopTrack; by rewrite Hcur).
  rewrite (playTrack_toggle _ _ _ _ cur Hsame Hstop), Hplay.
  unfold stopTrack. rewrite Hcur. cbn. split; [done|]. split; [done|].
  rewrite !list_alter_alter_eq. done.
Qed.

(** X22, "track-1" paused, then stopped, then played from the render
    that saw it paused. *)
Lemma playTrack_kept_after_stop_witness :
  let q := playTrack (audioState track1_paused) "a.mp3" "track-1" (stopTrack track1_paused) in
  audioState q = {| currentTrack := None; isPlaying := true;
                    currentTime := zero; duration := zero |} /\
  audioRef q = Some 0 /\
  elements q = alter (HTMLAudio.play ∘ rewind) 0 (elements track1_paused).
Proof.
  apply (playTrack_kept_after_stop (audioState track1_paused) "a.mp3" "track-1"
           track1_paused 0); reflexivity.
Defined.

(** ** The play/pause button of [AudioPlayer] *)

(** X14.  On a reachable provider, a click on the play/pause button of a
    player does exactly what [playTrack] of the same render does for the
    player's track: the button's own test for "current and playing" picks
    [pauseTrack] only where [playTrack] would pause as well. *)
Theorem click_play_pause_is_playTrack props p :
  reachable p ->
  click_play_pause props p =
    step p (Play (AudioPlayer.trackUrl props) (AudioPlayer.trackId props)).
Proof.
  intros Hreach.
  unfold click_play_pause, AudioPlayer.handlePlayPause, AudioPlayer.isPlaying,
    AudioPlayer.isCurrentTrack, step. cbn.
  case_bool_decide as Hsame; cbn; [|done].
  destruct (isPlaying (audioState p)) eqn:Hplay; [|done].
  destruct (current_track_has_element p _ Hreach Hsame) as (cur & Hcur & _).
  rewrite (playTrack_toggle _ _ _ p cur Hsame Hcur), Hplay.
  unfold pauseTrack. by rewrite Hcur.
Qed.

(** X14, the player of "track-1" while "track-1" plays. *)
Lemma click_play_pause_is_playTrack_witness :
  click_play_pause (AudioPlayer.mkProps "track-1" "a.mp3" "Track one" None) track1_playing =
    step track1_playing (Play "a.mp3" "track-1").
Proof.
  apply (click_play_pause_is_playTrack
           (AudioPlayer.mkProps "track-1" "a.mp3" "Track one" None) track1_playing).
  latest_session.
Defined.

(** X15.  On a reachable provider, every click on the play/pause button of
    a player makes the player's track current and flips what the player
    shows as playing: from any session, the button alternates between
    playing and paused. *)
Theorem click_play_pause_toggles props p :
  reachable p ->
  let q := click_play_pause props p in
  AudioPlayer.isCurrentTrack props (contextValue q) = true /\
  AudioPlayer.isPlaying props (contextValue q) =
    negb (AudioPlayer.isPlaying props (contextValue p)).
Proof.
  intros Hreach.
  unfold click_play_pause, AudioPlayer.handlePlayPause, AudioPlayer.isPlaying,
    AudioPlayer.isCurrentTrack. cbn.
  set (trackId := AudioPlayer.trackId props). set (trackUrl := AudioPlayer.trackUrl props).
  destruct (decide (currentTrack (audioState p) = Some trackId)) as [Hsame|Hdiff].
  - rewrite !(bool_decide_eq_true_2 (currentTrack (audioState p) = Some trackId)) by done.
    destruct (current_track_has_element p _ Hreach Hsame) as (cur & Hcur & _).
    destruct (isPlaying (audioState p)) eqn:Hplay; cbn.
    + unfold pauseTrack. rewrite Hcur. cbn. by rewrite bool_decide_eq_true_2.
    + rewrite (playTrack_toggle _ _ _ p cur Hsame Hcur), Hplay. cbn.
      by rewrite bool_decide_eq_true_2.
  - rewrite !(bool_decide_eq_false_2 (currentTrack (audioState p) = Some trackId)) by done.
    cbn. rewrite playTrack_start, startTrack_eq by done. cbn.
    by rewrite bool_decide_eq_true_2.
Qed.

(** X15, the player of "track-1" while "track-1" plays. *)
Lemma click_play_pause_toggles_witness :
  let props := AudioPlayer.mkProps "track-1" "a.mp3" "Track one" None in
  let q := click_play_pause props track1_playing in
  AudioPlayer.isCurrentTrack props (contextValue q) = true /\
  AudioPlayer.isPlaying props (contextValue q) =
    negb (AudioPlayer.isPlaying props (contextValue track1_playing)).
Proof.
  apply (click_play_pause_toggles
           (AudioPlayer.mkProps "track-1" "a.mp3" "Track one" None) track1_playing).
  latest_session.
Defined.

(** ** The time display and the progress bar of [AudioPlayer] *)

Lemma Qfloor_div_60 (s : Q) : Qfloor (s / 60) = (Qfloor s / 60)%Z.
Proof.
  destruct s as [n d]. unfold Qdiv, Qinv, Qmult. cbn [Qnum Qden Qfloor].
  rewrite Z.mul_1_r, Pos2Z.inj_mul, Zdiv.Zdiv_Zdiv by lia. done.
Qed.

Lemma Qfloor_sub_60 (s : Q) (k : Z) :
  Qfloor (s - 60 * inject_Z k) = (Qfloor s - 60 * k)%Z.
Proof.
  destruct s as [n d].
  rewrite (Qfloor_comp _ ((n + (- (60 * k)) * Zpos d) # d)).
  - cbn [Qfloor]. rewrite Z.div_add by lia. lia.
  - unfold Qeq, Qminus, Qplus, Qopp, Qmult, inject_Z. cbn [Qnum Qden]. lia.
Qed.

Lemma truncate_nonneg (x : Q) : (0 <= x)%Q -> truncate x = Qfloor x.
Proof. intros Hx. unfold truncate. by rewrite (proj2 (Qle_bool_iff 0 x) Hx). Qed.

Lemma Qfloor_nonneg (s : Q) : (0 <= s)%Q -> (0 <= Qfloor s)%Z.
Proof. intros Hs. change 0%Z with (Qfloor 0). by apply Qfloor_resp_le. Qed.

Lemma Qfloor_below (s : Q) (n : Z) : (s < inject_Z n)%Q -> (Qfloor s < n)%Z.
Proof.
  intros Hs. rewrite Zlt_Qlt. eapply Qle_lt_trans; [apply Qfloor_le|done].
Qed.

Lemma seconds_part (s : Q) :
  (0 <= s)%Q ->
  Qfloor (s - 60 * inject_Z (truncate (s / 60))) = (Qfloor s mod 60)%Z.
Proof.
  intros Hs.
  rewrite truncate_nonneg by (apply Qle_shift_div_l; [done|by rewrite Qmult_0_l]).
  rewrite Qfloor_div_60, Qfloor_sub_60, Z.mod_eq by lia. done.
Qed.

Lemma toString_whole (m : Z) :
  (Z.abs m < 10 ^ 21)%Z -> toString (Finite (inject_Z m)) = Some (pretty m).
Proof.
  intros Hm. unfold toString. rewrite Qfloor_Z.
  rewrite (proj2 (Qeq_bool_iff _ _) (Qeq_refl _)).
  by rewrite (proj2 (Z.ltb_lt _ _) Hm).
Qed.

Lemma two_digits_below_60 :
  forallb (fun k : nat =>
             String.eqb (padStart 2 "0" (pretty (Z.of_nat k)))
               (pretty (Z.of_nat k / 10)%Z +:+ pretty (Z.of_nat k mod 10)%Z))
          (seq 0 60) = true.
Proof. vm_compute. reflexivity. Qed.

Lemma two_digits (r : Z) :
  (0 <= r < 60)%Z ->
  padStart 2 "0" (pretty r) = pretty (r / 10)%Z +:+ pretty (r mod 10)%Z.
Proof.
  intros Hr. pose proof two_digits_below_60 as Hall.
  rewrite forallb_forall in Hall.
  specialize (Hall (Z.to_nat r)). rewrite Z2Nat.id in Hall by lia.
  apply String.eqb_eq, Hall, in_seq. lia.
Qed.

(** X16.  For every time from 0 to below 10^15 seconds, [formatTime] shows
    the whole seconds of it as minutes, a colon, and the seconds within the
    minute in exactly two digits, 00 to 59. *)
Theorem formatTime_minutes_seconds (seconds : Q) :
  (0 <= seconds)%Q ->
  (seconds < inject_Z (10 ^ 15))%Q ->
  let whole := Qfloor seconds in
  AudioPlayer.formatTime (Finite seconds) =
    Some (pretty (whole / 60)%Z +:+ ":" +:+
          (pretty (whole mod 60 / 10)%Z +:+ pretty (whole mod 10)%Z)).
Proof.
  intros Hs Hbound whole.
  pose proof (Qfloor_nonneg seconds Hs) as Hwhole. fold whole in Hwhole.
  pose proof (Qfloor_below seconds _ Hbound) as Hbelow. fold whole in Hbelow.
  unfold AudioPlayer.formatTime.
  change (divide (Finite seconds) (Finite 60)) with (Finite (seconds / 60)).
  change (remainder (Finite seconds) (Finite 60))
    with (Finite (seconds - 60 * inject_Z (truncate (seconds / 60)))).
  cbn [Math_floor]. rewrite Qfloor_div_60, seconds_part by done. fold whole.
  assert (0 <= whole / 60 <= whole)%Z as Hmins.
  { split; [apply Z.div_pos; lia|]. apply Z.div_le_upper_bound; lia. }
  assert (0 <= whole mod 60 < 60)%Z as Hsecs by (apply Z.mod_pos_bound; lia).
  rewrite !toString_whole by lia.
  rewrite two_digits by done.
  rewrite (Z.mod_mod_divide whole 60 10); [done|].
  exists 6%Z. lia.
Qed.

(** X16, at 125 seconds: "2:05". *)
Lemma formatTime_minutes_seconds_witness :
  AudioPlayer.formatTime (Finite 125) = Some ("2" +:+ ":" +:+ ("0" +:+ "5")).
Proof.
  apply (formatTime_minutes_seconds 125%Q); [discriminate|reflexivity].
Defined.



(** ** The pages that start playback *)

(** X18.  In the voice library, a click on the card of the voice that is
    playing (its button then reads "Stop") goes through [playTrack] for the
    same id: it pauses the voice, keeps it current without rewinding, and
    the page still shows the success toast "Playing voice sample". *)
Theorem handlePlaySample_on_playing_voice voice url p toasts :
  reachable p ->
  Voice.audioUrl voice = Some url ->
  url <> "" ->
  VoiceCard.isPlaying voice (contextValue p) = true ->
  let w := VoiceCard.handlePlay
             (Some (VoiceLibrary.handlePlaySample (contextValue p))) voice (p, toasts) in
  audioState (fst w) =
    {| currentTrack := Some (Voice.id voice); isPlaying := false;
       currentTime := currentTime (audioState p); duration := duration (audioState p) |} /\
  VoiceCard.isPlaying voice (contextValue (fst w)) = false /\
  snd w = toasts ++ [ {| toast_type := Success; toast_title := "Playing voice sample";
                         toast_message := Some ("Now playing " +:+ Voice.name voice) |} ].
Proof.
  intros Hreach Hurl Hne Hview.
  unfold VoiceCard.isPlaying, VoiceCard.isCurrentTrack in *. cbn in Hview.
  apply andb_prop in Hview as [Hsame Hplay].
  apply bool_decide_eq_true_1 in Hsame.
  destruct (current_track_has_element p _ Hreach Hsame) as (cur & Hcur & _).
  cbn [VoiceCard.handlePlay]. unfold VoiceLibrary.handlePlaySample. rewrite Hurl.
  destruct url as [|c url]; [done|]. cbn.
  rewrite (playTrack_toggle _ _ _ p cur Hsame Hcur), Hplay. cbn.
  unfold with_isPlaying. rewrite Hsame.
  split; [done|]. split; [|done]. apply andb_false_r.
Qed.

(** X18, for a voice "sara" that is playing. *)
Lemma handlePlaySample_on_playing_voice_witness :
  let voice := Voice.mk "sara" "Sara" (Some "sara.mp3") in
  let p := step mount (Play "sara.mp3" "sara") in
  let w := VoiceCard.handlePlay
             (Some (VoiceLibrary.handlePlaySample (contextValue p))) voice (p, []) in
  audioState (fst w) =
    {| currentTrack := Some "sara"; isPlaying := false;
       currentTime := currentTime (audioState p); duration := duration (audioState p) |} /\
  VoiceCard.isPlaying voice (contextValue (fst w)) = false /\
  snd w = [] ++ [ {| toast_type := Success; toast_title := "Playing voice sample";
                     toast_message := Some ("Now playing " +:+ "Sara") |} ].
Proof.
  apply (handlePlaySample_on_playing_voice
           (Voice.mk "sara" "Sara" (Some "sara.mp3")) "sara.mp3"
           (step mount (Play "sara.mp3" "sara")) []).
  - latest_session.
  - reflexivity.
  - discriminate.
  - reflexivity.
Defined.




